(** * LocalStorage: the local-filesystem attachment storage adapter

    A shallow embedding of
    [apps/nestjs-backend/src/features/attachments/plugins/local.ts]
    and the properties of its presign / validate / persist / read-token
    protocol.

    Conventions of the embedding:
    - JavaScript numbers that hold sizes and epoch times are integers ([Z]);
    - [Date.now()] (milliseconds) and [getRandomString(12)] are inputs of the
      operation that calls them;
    - the filesystem is a finite map from resolved paths to file contents,
      the cache a finite map from keys to cached values;
    - an [async] method is a state-passing function over the [World] that
      either returns ([Ok]) or throws / rejects ([Err]). *)

From Stdlib Require Import ZArith Ascii String List Lia Bool.
From Stdlib Require Import Decimal DecimalString DecimalZ.
From Stdlib Require Import Init.Byte.
From stdpp Require Import base option strings gmap.

Local Open Scope string_scope.
Local Open Scope Z_scope.

(** File contents and chunks. *)
Abbreviation bytes := (list Byte.byte).

(** ** Exceptions and results *)

Inductive Exception :=
  | BadRequestException (message : string)
  (* an [Error] object raised by fs, a stream, sharp or the cipher *)
  | Error (message : string)
  (* a bare string used as rejection value, as in [reject(err.message)] *)
  | Rejected (message : string).

Inductive Result (A : Type) :=
  | Ok (a : A)
  | Err (e : Exception).
Arguments Ok {A} a.
Arguments Err {A} e.

(** [try { body } catch (error) { handler(error) }] *)
Definition tryCatch {A} (body : Result A) (handler : Exception → Result A) : Result A :=
  match body with
  | Ok a => Ok a
  | Err e => handler e
  end.

(** JavaScript truthiness of the values tested by the adapter. *)
Definition truthyNumber (n : Z) : bool := negb (Z.eqb n 0).
Definition truthyString (s : string) : bool := negb (String.eqb s "").
Definition truthyOptString (s : option string) : bool :=
  match s with
  | Some s => truthyString s
  | None => false
  end.

(** [Math.floor(Date.now() / 1000)] for a clock reading in milliseconds. *)
Definition epochSeconds (now : Z) : Z := now / 1000.

(** ** Interfaces (./types) *)

(** [IRespHeaders]: response header name ↦ value. *)
Abbreviation IRespHeaders := (gmap string string).

Module ITokenEncryptor.
Record t := mk {
  expiresDate : Z;
  respHeaders : option IRespHeaders;
}.
End ITokenEncryptor.

Module IPresignParams.
Record t := mk {
  contentType : string;
  contentLength : Z;
  hash : option string;
  expiresIn : option Z;
}.
End IPresignParams.

Module IRequestHeaders.
Record t := mk {
  ContentType : string;
  ContentLength : Z;
}.
End IRequestHeaders.

Module IPresignRes.
Record t := mk {
  token : string;
  path : string;
  url : string;
  uploadMethod : string;
  requestHeaders : IRequestHeaders.t;
}.
End IPresignRes.

Module ILocalFileUpload.
(* [mimetype] is [req.headers['content-type'] as string]: the header may
   be missing, the cast does not change that. *)
Record t := mk {
  size : Z;
  mimetype : option string;
  path : string;
}.
End ILocalFileUpload.

Module IObjectMeta.
Record t := mk {
  hash : string;
  mimetype : string;
  size : Z;
  url : string;
  width : option Z;
  height : option Z;
}.
End IObjectMeta.

Module IUploadRes.
Record t := mk {
  hash : string;
  path : string;
}.
End IUploadRes.

Module IParsedPath.
Record t := mk {
  bucket : string;
  token : string;
}.
End IParsedPath.

(** The two families of cache entries the adapter touches. *)
Module ILocalSignature.
Record t := mk {
  expiresDate : Z;
  contentLength : Z;
  contentType : string;
}.
End ILocalSignature.

Module IUploadCache.
Record t := mk {
  mimetype : string;
  hash : string;
  size : Z;
}.
End IUploadCache.

(** ** The token codec *)

(** The interface of [Encryptor<T>] as the adapter uses it. *)
Record Encryptor (T : Type) := {
  encrypt : T → string;
  decrypt : string → Result T;
}.
Arguments encrypt {T} _ _.
Arguments decrypt {T} _ _.

Module TokenCodec.

(** *** Framing: a list of fields into one string.
    Every field is terminated by [;]; a [;] or [\] inside a field is
    preceded by [\]. *)
Definition sep : ascii := ";"%char.
Definition esc : ascii := "\"%char.

Definition special (c : ascii) : bool := Ascii.eqb c sep || Ascii.eqb c esc.

Fixpoint escape (s : string) : string :=
  match s with
  | EmptyString => EmptyString
  | String c s' =>
      if special c then String esc (String c (escape s'))
      else String c (escape s')
  end.

Fixpoint frame (fields : list string) : string :=
  match fields with
  | [] => EmptyString
  | f :: fields' => escape f +:+ String sep (frame fields')
  end.

(** [cur] is the part of the current field read so far. *)
Fixpoint unframeFrom (cur : string) (s : string) : option (list string) :=
  match s with
  | EmptyString =>
      match cur with
      | EmptyString => Some []
      | String _ _ => None
      end
  | String c s' =>
      if Ascii.eqb c esc then
        match s' with
        | EmptyString => None
        | String c' s'' => unframeFrom (cur +:+ String c' EmptyString) s''
        end
      else if Ascii.eqb c sep then
        cons cur <$> unframeFrom EmptyString s'
      else unframeFrom (cur +:+ String c EmptyString) s'
  end.

Definition unframe (s : string) : option (list string) :=
  unframeFrom EmptyString s.

(** *** The payload as fields *)
Definition stringOfZ (z : Z) : string := NilEmpty.string_of_int (Z.to_int z).
Definition zOfString (s : string) : option Z :=
  Z.of_int <$> NilEmpty.int_of_string s.

Fixpoint flatten (kvs : list (string * string)) : list string :=
  match kvs with
  | [] => []
  | (k, v) :: kvs' => k :: v :: flatten kvs'
  end.

Fixpoint pairs (fs : list string) : option (list (string * string)) :=
  match fs with
  | [] => Some []
  | k :: fs' =>
      match fs' with
      | [] => None
      | v :: fs'' => cons (k, v) <$> pairs fs''
      end
  end.

Definition fieldsOf (p : ITokenEncryptor.t) : list string :=
  stringOfZ (ITokenEncryptor.expiresDate p) ::
  match ITokenEncryptor.respHeaders p with
  | None => []
  | Some h => "h" :: flatten (map_to_list h)
  end.

Definition ofFields (fs : list string) : option ITokenEncryptor.t :=
  match fs with
  | [] => None
  | d :: rest =>
      z ← zOfString d;
      match rest with
      | [] => Some (ITokenEncryptor.mk z None)
      | m :: kvs =>
          if String.eqb m "h" then
            l ← pairs kvs;
            Some (ITokenEncryptor.mk z (Some (list_to_map l)))
          else None
      end
  end.

(** *** Sealing: masking with the key stream and an integrity tag *)
Definition xorAscii (a b : ascii) : ascii :=
  match a, b with
  | Ascii a0 a1 a2 a3 a4 a5 a6 a7, Ascii b0 b1 b2 b3 b4 b5 b6 b7 =>
      Ascii (xorb a0 b0) (xorb a1 b1) (xorb a2 b2) (xorb a3 b3)
            (xorb a4 b4) (xorb a5 b5) (xorb a6 b6) (xorb a7 b7)
  end.

Definition pad (key : string) (i : nat) : ascii :=
  nth (i mod String.length key) (list_ascii_of_string key) Ascii.zero.

Fixpoint mask (key : string) (i : nat) (s : string) : string :=
  match s with
  | EmptyString => EmptyString
  | String c s' => String (xorAscii c (pad key i)) (mask key (S i) s')
  end.

Fixpoint digest (acc : N) (s : string) : N :=
  match s with
  | EmptyString => acc
  | String c s' => digest ((acc * 31 + N_of_ascii c) mod 65536)%N s'
  end.

Definition tag (key plain : string) : ascii :=
  ascii_of_N (digest (digest 7%N key) plain).

Definition seal (key plain : string) : string :=
  String (tag key plain) (mask key 0 plain).

Definition unseal (key token : string) : option string :=
  match token with
  | EmptyString => None
  | String t body =>
      let plain := mask key 0 body in
      if Ascii.eqb t (tag key plain) then Some plain else None
  end.

Definition open (key token : string) : option ITokenEncryptor.t :=
  fs ← unseal key token ≫= unframe;
  ofFields fs.

(** Modelled from the spec: the [Encryptor] class (utils/encryptor) is not
    among the sources.  The spec's Token Codec is a symmetric,
    authenticated encrypt/decrypt of a small structured payload (expiry
    and optional response headers) into an opaque string, keyed by a
    secret configured at construction; [decrypt] recovers the payload or
    fails when the token is malformed or fails integrity verification.
    This reference codec serialises the payload into fields, masks them
    with the key stream and prepends a keyed integrity tag. *)
Definition new (key : string) : Encryptor ITokenEncryptor.t := {|
  encrypt := fun p => seal key (frame (fieldsOf p));
  decrypt := fun token =>
    match open key token with
    | Some p => Ok p
    | None => Err (Error "Invalid token")
    end;
|}.

End TokenCodec.

(** ** The world the adapter runs in *)

(** What [sharp(path).metadata()] reports. *)
Record ISharpInfo := {
  info_width : option Z;
  info_height : option Z;
}.

(** The libraries the adapter calls, as capabilities of the platform. *)
Class Platform := {
  (* [path.join(...parts)] and [path.resolve(...parts)] *)
  join : list string → string;
  resolve : list string → string;
  (* [process.cwd()] and [os.tmpdir()] *)
  cwd : string;
  tmpdir : string;
  (* [second(duration)]: a configured duration in seconds *)
  second : string → Z;
  (* the digest [FileUtils.getHash] computes over a file's bytes *)
  hashOf : bytes → string;
  (* [sharp(path).metadata()], given what is stored at [path] *)
  sharpMetadata : option bytes → Result ISharpInfo;
}.

Record World := mkWorld {
  localSignatures : gmap string (ILocalSignature.t * Z);
  uploadCaches : gmap string (IUploadCache.t * Z);
  fs : gmap string (bytes);
}.

(** An [async] computation: it reads and updates the world and either
    returns or throws. *)
Definition M (A : Type) : Type := World → Result A * World.

Definition ret {A} (a : A) : M A := fun w => (Ok a, w).
Definition throw {A} (e : Exception) : M A := fun w => (Err e, w).
Definition bind {A B} (m : M A) (k : A → M B) : M B :=
  fun w =>
    match m w with
    | (Ok a, w') => k a w'
    | (Err e, w') => (Err e, w')
    end.

Notation "'let!' x := m 'in' k" := (bind m (fun x => k))
  (at level 10, x name, m at level 100, k at level 200).
Notation "m ;; k" := (bind m (fun _ => k))
  (at level 100, k at level 200, right associativity).

(** *** CacheService *)

(** Modelled from the spec: [CacheService] (cache/cache.service) is not
    among the sources.  The spec's TTL Cache stores a value under a key
    with a time-to-live in seconds, and [get] returns the value or absent.
    Eviction is time-driven and not under the caller's control: an entry is
    readable exactly as long as it is still in the store. *)
Definition cacheSet {V} (key : string) (value : V) (ttl : Z)
    (store : gmap string (V * Z)) : gmap string (V * Z) :=
  <[key := (value, ttl)]> store.

Definition cacheGet {V} (key : string) (store : gmap string (V * Z)) : option V :=
  fst <$> store !! key.

Definition setLocalSignature (key : string) (value : ILocalSignature.t) (ttl : Z) : M unit :=
  fun w => (Ok tt, mkWorld (cacheSet key value ttl (localSignatures w)) (uploadCaches w) (fs w)).

Definition getLocalSignature (key : string) : M (option ILocalSignature.t) :=
  fun w => (Ok (cacheGet key (localSignatures w)), w).

Definition getUploadCache (key : string) : M (option IUploadCache.t) :=
  fun w => (Ok (cacheGet key (uploadCaches w)), w).

(** *** The filesystem (fs, fs-extra) *)

Definition setFs (f : gmap string (bytes) → gmap string (bytes)) : M unit :=
  fun w => (Ok tt, mkWorld (localSignatures w) (uploadCaches w) (f (fs w))).

Definition existsSync (filePath : string) : M bool :=
  fun w => (Ok (bool_decide (is_Some (fs w !! filePath))), w).

Definition unlinkSync (filePath : string) : M unit := setFs (delete filePath).

(** [fse.writeFile(path, data)] and [createWriteStream(path)]: the file is
    created or truncated; [write(chunk)] appends to it. *)
Definition writeFile (filePath : string) (data : bytes) : M unit :=
  setFs <[filePath := data]>.

Definition createWriteStream (filePath : string) : M unit := writeFile filePath [].

Definition write (filePath : string) (chunk : bytes) : M unit :=
  setFs (fun files => <[filePath := (default [] (files !! filePath) ++ chunk)%list]> files).

Fixpoint writeAll (filePath : string) (chunks : list (bytes)) : M unit :=
  match chunks with
  | [] => ret tt
  | chunk :: chunks' => write filePath chunk;; writeAll filePath chunks'
  end.

(** A fault that makes [fse.copy] fail part-way: the error message and
    what, if anything, it had already written to the destination. *)
Record CopyFault := {
  fault_message : string;
  fault_partial : option bytes;
}.

(** [fse.copy(src, dest)]: it fails when the source is missing, when source
    and destination are the same path, or on a fault of the medium. *)
Definition copy (fault : option CopyFault) (src dest : string) : M unit :=
  fun w =>
    match fs w !! src with
    | None => (Err (Error "ENOENT: no such file or directory"), w)
    | Some data =>
        if decide (src = dest)
        then (Err (Error "Source and destination must not be the same."), w)
        else
          match fault with
          | Some f =>
              (Err (Error (fault_message f)),
               match fault_partial f with
               | Some part => mkWorld (localSignatures w) (uploadCaches w) (<[dest := part]> (fs w))
               | None => w
               end)
          | None => writeFile dest data w
          end
    end.

(** [fse.remove(path)]: removing a path that is not there is not an error. *)
Definition remove (filePath : string) : M unit := setFs (delete filePath).

(** *** Streams *)

(** A readable stream as what it emits: data chunks, then [end] or [error]. *)
Inductive StreamEnd :=
  | StreamEnded
  | StreamError (message : string).

Record Readable := {
  chunks : list (bytes);
  ending : StreamEnd;
}.

Inductive UploadSource :=
  | FromBuffer (data : bytes)
  | FromStream (stream : Readable).

(** An incoming request body: either [createWriteStream] throws at once, or
    chunks flow until the request ends, the request errors or the sink
    errors. *)
Inductive RequestEnd :=
  | RequestEnded
  | RequestError (message : string)
  | SinkError (message : string).

Inductive RequestFlow :=
  | CreateThrows (e : Exception)
  | Flow (body : list (bytes)) (ending : RequestEnd).

Record Request := {
  headerContentType : option string;
  flow : RequestFlow;
}.

Definition byteLength (chunk : bytes) : Z := Z.of_nat (length chunk).

(** ** Configuration *)

Record IStorageConfig := {
  localPath : string;
  encryption : string;
  tokenExpireIn : string;
  urlExpireIn : string;
}.

Record IBaseConfig := {
  storagePrefix : string;
}.

(** ** Strings *)

(** [s.split(separator)] for a one-character separator: the pieces between
    the separators, in order; there is always at least one piece. *)
Fixpoint stringSplit (separator : ascii) (s : string) : list string :=
  match s with
  | EmptyString => [EmptyString]
  | String c s' =>
      if Ascii.eqb c separator then EmptyString :: stringSplit separator s'
      else
        match stringSplit separator s' with
        | [] => [String c EmptyString]
        | piece :: pieces => String c piece :: pieces
        end
  end.

(** Whether [c] occurs in [s]. *)
Fixpoint containsChar (c : ascii) (s : string) : bool :=
  match s with
  | EmptyString => false
  | String x s' => Ascii.eqb x c || containsChar c s'
  end.

(** [parts[i]] of an array of strings; [undefined] is [None]. *)
Definition firstPart (parts : list string) : option string := head parts.
Definition lastPart (parts : list string) : option string := last parts.

(** ** The adapter *)

Module LocalStorage.

Record t := {
  path : string;
  storageDir : string;
  temporaryDir : string;
  expireTokenEncryptor : Encryptor ITokenEncryptor.t;
  config : IStorageConfig;
  baseConfig : IBaseConfig;
}.

Definition readPath : string := "/api/attachments/read".

Section Methods.
Context `{Platform}.

(** The constructor; the two [ensureDirSync] calls create directories,
    which the file map does not record. *)
Definition new (config : IStorageConfig) (baseConfig : IBaseConfig) : t := {|
  path := localPath config;
  storageDir := resolve [cwd; localPath config];
  temporaryDir := resolve [tmpdir; ".temporary"];
  expireTokenEncryptor := TokenCodec.new (encryption config);
  config := config;
  baseConfig := baseConfig;
|}.

Variable this : t.

Definition getUploadUrl (token : string) : string :=
  "/api/attachments/upload/" +:+ token.

Definition deleteFile (filePath : string) : M unit :=
  let! present := existsSync filePath in
  if present then unlinkSync filePath else ret tt.

Definition getUrl (bucket path : string) (params : ITokenEncryptor.t) : string :=
  let token := encrypt (expireTokenEncryptor this) params in
  let responseContentDisposition :=
    h ← ITokenEncryptor.respHeaders params; h !! "Content-Disposition" in
  join [readPath; bucket; path] +:+ "?token=" +:+ token +:+
  match responseContentDisposition with
  | Some value =>
      if truthyString value
      then "&response-content-disposition=" +:+ value
      else ""
  | None => ""
  end.

(** [parts[0]] and [parts[parts.length - 1]] are always defined, since
    [split] returns at least one piece. *)
Definition parsePath (path : string) : IParsedPath.t :=
  let parts := stringSplit "/" path in
  {| IParsedPath.bucket := default "" (firstPart parts);
     IParsedPath.token := default "" (lastPart parts) |}.

Definition presigned (_bucket dir : string) (params : IPresignParams.t)
    (randomString : string) (now : Z) : M IPresignRes.t :=
  let contentType := IPresignParams.contentType params in
  let contentLength := IPresignParams.contentLength params in
  let hash := IPresignParams.hash params in
  let token := randomString in
  let filename := default token hash in
  let expiresIn :=
    default (second (tokenExpireIn (config this))) (IPresignParams.expiresIn params) in
  setLocalSignature ("attachment:local-signature:" +:+ token)
    {| ILocalSignature.expiresDate := epochSeconds now + expiresIn;
       ILocalSignature.contentLength := contentLength;
       ILocalSignature.contentType := contentType |}
    expiresIn;;
  let path := join [dir; filename] in
  ret {| IPresignRes.token := token;
         IPresignRes.path := path;
         IPresignRes.url := getUploadUrl token;
         IPresignRes.uploadMethod := "PUT";
         IPresignRes.requestHeaders :=
           {| IRequestHeaders.ContentType := contentType;
              IRequestHeaders.ContentLength := contentLength |} |}.

Definition validateToken (token : string) (file : ILocalFileUpload.t) (now : Z) : M unit :=
  let! validateMeta := getLocalSignature ("attachment:local-signature:" +:+ token) in
  match validateMeta with
  | None => throw (BadRequestException "Invalid token")
  | Some validateMeta =>
      let expiresDate := ILocalSignature.expiresDate validateMeta in
      let contentLength := ILocalSignature.contentLength validateMeta in
      let contentType := ILocalSignature.contentType validateMeta in
      let size := ILocalFileUpload.size file in
      let mimetype := ILocalFileUpload.mimetype file in
      if epochSeconds now >? expiresDate then
        throw (BadRequestException "Token has expired")
      else if truthyNumber contentLength && negb (Z.eqb contentLength size) then
        throw (BadRequestException "Size mismatch")
      else
        match mimetype with
        | Some mimetype =>
            if truthyString mimetype && negb (String.eqb mimetype contentType) then
              throw (BadRequestException ("Not allow upload " +:+ mimetype +:+ " file"))
            else ret tt
        | None => ret tt
        end
  end.

Definition saveTemporaryFile (req : Request) (randomString : string) : M ILocalFileUpload.t :=
  let name := randomString in
  let path := resolve [temporaryDir this; name] in
  match flow req with
  | CreateThrows error => deleteFile path;; throw error
  | Flow body ending =>
      createWriteStream path;;
      writeAll path body;;
      let size := foldr (fun chunk size => size + byteLength chunk) 0 body in
      match ending with
      | RequestEnded =>
          ret {| ILocalFileUpload.size := size;
                 ILocalFileUpload.mimetype := headerContentType req;
                 ILocalFileUpload.path := path |}
      | RequestError message => deleteFile path;; throw (Rejected message)
      | SinkError message => deleteFile path;; throw (Rejected message)
      end
  end.

Definition save (fault : option CopyFault) (filePath rename : string) : M string :=
  let distPath := resolve [storageDir this] in
  let newFilePath := resolve [distPath; rename] in
  copy fault filePath newFilePath;;
  remove filePath;;
  ret (join [path this; rename]).

Definition getFileMate (path : string) : M (option Z * option Z) :=
  fun w =>
    match sharpMetadata (fs w !! path) with
    | Ok info => (Ok (info_width info, info_height info), w)
    | Err e => (Err e, w)
    end.

Definition getObjectMeta (bucket path token : string) : M IObjectMeta.t :=
  let! uploadCache := getUploadCache ("attachment:upload:" +:+ token) in
  match uploadCache with
  | None => throw (BadRequestException ("Invalid token: " +:+ token))
  | Some uploadCache =>
      let mimetype := IUploadCache.mimetype uploadCache in
      let hash := IUploadCache.hash uploadCache in
      let size := IUploadCache.size uploadCache in
      let url :=
        getUrl bucket path
          {| ITokenEncryptor.respHeaders := Some {[ "Content-Type" := mimetype ]};
             ITokenEncryptor.expiresDate := -1 |} in
      let meta := IObjectMeta.mk hash mimetype size url in
      if negb (String.prefix "image/" mimetype) then ret (meta None None)
      else
        let! dims := getFileMate (resolve [storageDir this; bucket; path]) in
        ret (meta (fst dims) (snd dims))
  end.

Definition getPreviewUrl (bucket path : string) (expiresIn : option Z)
    (respHeaders : option IRespHeaders) (now : Z) : string :=
  let expiresIn := default (second (urlExpireIn (config this))) expiresIn in
  let url :=
    getUrl bucket path
      {| ITokenEncryptor.expiresDate := epochSeconds now + expiresIn;
         ITokenEncryptor.respHeaders := respHeaders |} in
  storagePrefix (baseConfig this) +:+ join ["/"; url].

Definition verifyReadToken (token : string) (now : Z) : Result (option IRespHeaders) :=
  tryCatch
    (match decrypt (expireTokenEncryptor this) token with
     | Err e => Err e
     | Ok payload =>
         let expiresDate := ITokenEncryptor.expiresDate payload in
         let respHeaders := ITokenEncryptor.respHeaders payload in
         if (expiresDate >? 0) && (epochSeconds now >? expiresDate) then
           Err (BadRequestException "Token has expired")
         else Ok respHeaders
     end)
    (fun _error => Err (BadRequestException "Invalid token")).

(** [FileUtils.getHash(filePath)] reads the file and digests it. *)
Definition getHash (filePath : string) : M string :=
  fun w =>
    match fs w !! filePath with
    | Some data => (Ok (hashOf data), w)
    | None => (Err (Error "ENOENT: no such file or directory"), w)
    end.

Definition uploadFileWidthPath (fault : option CopyFault)
    (bucket path filePath : string) : M IUploadRes.t :=
  let! hash := getHash filePath in
  save fault filePath (join [bucket; path]);;
  ret {| IUploadRes.hash := hash; IUploadRes.path := path |}.

Definition uploadFile (fault : option CopyFault) (bucket path : string)
    (stream : UploadSource) (randomString : string) : M IUploadRes.t :=
  let name := randomString in
  let temPath := resolve [temporaryDir this; name] in
  match stream with
  | FromBuffer data => writeFile temPath data
  | FromStream stream =>
      createWriteStream temPath;;
      writeAll temPath (chunks stream);;
      match ending stream with
      | StreamEnded => ret tt
      | StreamError message => deleteFile path;; throw (Error message)
      end
  end;;
  let! hash := getHash temPath in
  save fault temPath (join [bucket; path]);;
  ret {| IUploadRes.hash := hash; IUploadRes.path := path |}.

End Methods.

End LocalStorage.

(** ** A concrete platform and concrete inputs

    Paths are joined with [/] without normalisation; the digest of a file is
    its length in decimal; an image is a file that starts with the byte
    [x89] followed by one byte of width and one byte of height. *)
Module Demo.

Definition decodeImage (content : option bytes) : Result ISharpInfo :=
  match content with
  | None => Err (Error "Input file is missing")
  | Some (x89 :: w :: h :: _) =>
      Ok {| info_width := Some (Z.of_N (Byte.to_N w));
            info_height := Some (Z.of_N (Byte.to_N h)) |}
  | Some _ => Err (Error "Input file contains unsupported image format")
  end.

Definition platform : Platform := {|
  join := String.concat "/";
  resolve := String.concat "/";
  cwd := "/app";
  tmpdir := "/tmp";
  second := fun _ => 3600;
  hashOf := fun data => TokenCodec.stringOfZ (byteLength data);
  sharpMetadata := decodeImage;
|}.

Definition storageConfig : IStorageConfig := {|
  localPath := ".assets/uploads";
  encryption := "s3cret";
  tokenExpireIn := "1h";
  urlExpireIn := "7d";
|}.

Definition storage : LocalStorage.t :=
  @LocalStorage.new platform storageConfig {| storagePrefix := "http://localhost:3000" |}.

Definition emptyWorld : World := mkWorld ∅ ∅ ∅.

(** A read token that expired at second 100, and a clock at second 200. *)
Definition expiredPayload : ITokenEncryptor.t :=
  {| ITokenEncryptor.expiresDate := 100; ITokenEncryptor.respHeaders := None |}.
Definition expiredToken : string :=
  encrypt (LocalStorage.expireTokenEncryptor storage) expiredPayload.

(** A stream that delivers three bytes and then errors. *)
Definition brokenStream : Readable :=
  {| chunks := [[x61; x62; x63]]; ending := StreamError "socket hang up" |}.

Definition brokenRequest : Request :=
  {| headerContentType := Some "image/png";
     flow := Flow [[x61; x62; x63]] (RequestError "aborted") |}.

(** A presigned entry that declares a content length of 0, and one that
    declares 1024 bytes of PNG; both expire at second 160. *)
Definition zeroLengthWorld : World :=
  mkWorld
    {[ "attachment:local-signature:tok" :=
         ({| ILocalSignature.expiresDate := 160;
             ILocalSignature.contentLength := 0;
             ILocalSignature.contentType := "image/png" |}, 60) ]}
    ∅ ∅.

Definition pngWorld : World :=
  mkWorld
    {[ "attachment:local-signature:tok" :=
         ({| ILocalSignature.expiresDate := 160;
             ILocalSignature.contentLength := 1024;
             ILocalSignature.contentType := "image/png" |}, 60) ]}
    ∅ ∅.

Definition fiveBytes : ILocalFileUpload.t :=
  {| ILocalFileUpload.size := 5;
     ILocalFileUpload.mimetype := Some "image/png";
     ILocalFileUpload.path := "/tmp/.temporary/abc" |}.

Definition untypedUpload : ILocalFileUpload.t :=
  {| ILocalFileUpload.size := 1024;
     ILocalFileUpload.mimetype := None;
     ILocalFileUpload.path := "/tmp/.temporary/abc" |}.

Definition textUpload : ILocalFileUpload.t :=
  {| ILocalFileUpload.size := 1024;
     ILocalFileUpload.mimetype := Some "text/plain";
     ILocalFileUpload.path := "/tmp/.temporary/abc" |}.

(** A persisted object declared as PNG whose bytes are not an image. *)
Definition notAnImageWorld : World :=
  mkWorld ∅
    {[ "attachment:upload:up1" :=
         ({| IUploadCache.mimetype := "image/png";
             IUploadCache.hash := "3";
             IUploadCache.size := 3 |}, 3600) ]}
    {[ "/app/.assets/uploads/bucket/pic" := [x61; x62; x63] ]}.

(** A temporary file waiting to be relocated. *)
Definition tempWorld : World :=
  mkWorld ∅ ∅ {[ "/tmp/.temporary/abc" := [x61; x62; x63] ]}.


(** A persisted object that is an image of width 2 and height 3. *)
Definition imageWorld : World :=
  mkWorld ∅
    {[ "attachment:upload:up1" :=
         ({| IUploadCache.mimetype := "image/png";
             IUploadCache.hash := "3";
             IUploadCache.size := 3 |}, 3600) ]}
    {[ "/app/.assets/uploads/bucket/pic" := [x89; x02; x03] ]}.



(** A decryptable read token that never expires. *)
Definition permanentPayload : ITokenEncryptor.t :=
  {| ITokenEncryptor.expiresDate := -1;
     ITokenEncryptor.respHeaders := Some {[ "Content-Type" := "image/png" ]} |}.
Definition permanentToken : string :=
  encrypt (LocalStorage.expireTokenEncryptor storage) permanentPayload.

End Demo.

(** * Properties *)

(** ** The token codec: what is sealed can be opened *)

Section TokenCodecFacts.
Import TokenCodec.

Lemma string_app_cons (x : ascii) (a b : string) :
  String x a +:+ b = String x (a +:+ b).
Proof. reflexivity. Qed.

Lemma string_app_nil_r (a : string) : a +:+ EmptyString = a.
Proof.
  induction a as [|x a IH]; [done |].
  by rewrite string_app_cons, IH.
Qed.

Lemma string_app_assoc (a b c : string) : (a +:+ b) +:+ c = a +:+ (b +:+ c).
Proof.
  induction a as [|x a IH]; [done |].
  by rewrite !string_app_cons, IH.
Qed.

Lemma xorb_cancel (a b : bool) : xorb (xorb a b) b = a.
Proof. by destruct a, b. Qed.

Lemma xorAscii_cancel (a b : ascii) : xorAscii (xorAscii a b) b = a.
Proof.
  destruct a, b; unfold xorAscii.
  by rewrite !xorb_cancel.
Qed.

Lemma mask_cancel (key : string) (s : string) :
  ∀ i, mask key i (mask key i s) = s.
Proof.
  induction s as [|c s IH]; intros i; simpl; [done |].
  by rewrite xorAscii_cancel, IH.
Qed.

Lemma unseal_seal (key plain : string) : unseal key (seal key plain) = Some plain.
Proof.
  unfold unseal, seal.
  rewrite mask_cancel.
  by rewrite Ascii.eqb_refl.
Qed.

Lemma special_false (c : ascii) :
  special c = false → Ascii.eqb c esc = false ∧ Ascii.eqb c sep = false.
Proof.
  unfold special. intros Hc.
  apply orb_false_iff in Hc. tauto.
Qed.

(** Reading an escaped field up to its terminator yields the field. *)
Lemma unframeFrom_field (f rest : string) :
  ∀ cur,
    unframeFrom cur (escape f +:+ String sep rest)
    = cons (cur +:+ f) <$> unframeFrom EmptyString rest.
Proof.
  induction f as [|c f IH]; intros cur.
  - by rewrite string_app_nil_r.
  - simpl escape. destruct (special c) eqn:Hc.
    + rewrite !string_app_cons.
      change (unframeFrom cur (String esc (String c (escape f +:+ String sep rest))))
        with (unframeFrom (cur +:+ String c EmptyString) (escape f +:+ String sep rest)).
      rewrite IH. by rewrite string_app_assoc.
    + destruct (special_false c Hc) as [He Hs].
      rewrite string_app_cons.
      cbn [unframeFrom]. rewrite He, Hs.
      rewrite IH. by rewrite string_app_assoc.
Qed.

Lemma unframe_frame (fields : list string) : unframe (frame fields) = Some fields.
Proof.
  unfold unframe.
  induction fields as [|f fields IH]; [done |].
  simpl frame. rewrite unframeFrom_field, IH. done.
Qed.

Lemma zOfString_stringOfZ (z : Z) : zOfString (stringOfZ z) = Some z.
Proof.
  unfold zOfString, stringOfZ.
  rewrite NilEmpty.isi. simpl.
  by rewrite DecimalZ.of_to.
Qed.

Lemma pairs_flatten (kvs : list (string * string)) : pairs (flatten kvs) = Some kvs.
Proof.
  induction kvs as [|[k v] kvs IH]; [done |].
  simpl. by rewrite IH.
Qed.

Lemma ofFields_fieldsOf (p : ITokenEncryptor.t) : ofFields (fieldsOf p) = Some p.
Proof.
  destruct p as [z [h|]]; unfold ofFields, fieldsOf; simpl;
    rewrite zOfString_stringOfZ; simpl; [|done].
  rewrite pairs_flatten. simpl.
  by rewrite list_to_map_to_list.
Qed.

Lemma open_seal (key : string) (p : ITokenEncryptor.t) :
  open key (seal key (frame (fieldsOf p))) = Some p.
Proof.
  unfold open.
  rewrite unseal_seal.
  change (unframe (frame (fieldsOf p)) ≫= ofFields = Some p).
  rewrite unframe_frame.
  apply ofFields_fieldsOf.
Qed.

(** A token whose integrity tag does not match its body is rejected, and so
    is the empty token. *)
Lemma unseal_wrong_tag (key body : string) (t : ascii) :
  t ≠ tag key (mask key 0 body) → unseal key (String t body) = None.
Proof.
  intros Hne. unfold unseal.
  by destruct (Ascii.eqb_spec t (tag key (mask key 0 body))).
Qed.

Lemma decrypt_wrong_tag (key body : string) (t : ascii) :
  t ≠ tag key (mask key 0 body) →
  decrypt (TokenCodec.new key) (String t body) = Err (Error "Invalid token").
Proof.
  intros Hne. unfold TokenCodec.new; cbn [decrypt].
  unfold open. by rewrite unseal_wrong_tag.
Qed.

Lemma decrypt_empty (key : string) :
  decrypt (TokenCodec.new key) EmptyString = Err (Error "Invalid token").
Proof. reflexivity. Qed.

(** C9. Token codec round trip: for every key and every read-access
    payload (any expiry, with or without response headers), decrypting the
    token obtained by encrypting the payload returns that payload. *)
Theorem decrypt_encrypt_roundtrip (key : string) (p : ITokenEncryptor.t) :
  decrypt (TokenCodec.new key) (encrypt (TokenCodec.new key) p) = Ok p.
Proof.
  unfold TokenCodec.new; cbn [decrypt encrypt].
  by rewrite open_seal.
Qed.

End TokenCodecFacts.

(** ** Read tokens *)

Section ReadTokens.
Import LocalStorage.
Variable this : LocalStorage.t.

Lemma verifyReadToken_undecodable (token : string) (now : Z) (e : Exception) :
  decrypt (expireTokenEncryptor this) token = Err e →
  verifyReadToken this token now = Err (BadRequestException "Invalid token").
Proof. intros Hd. unfold verifyReadToken. by rewrite Hd. Qed.

Lemma verifyReadToken_live (token : string) (now : Z) (payload : ITokenEncryptor.t) :
  decrypt (expireTokenEncryptor this) token = Ok payload →
  ITokenEncryptor.expiresDate payload ≤ 0
    ∨ epochSeconds now ≤ ITokenEncryptor.expiresDate payload →
  verifyReadToken this token now = Ok (ITokenEncryptor.respHeaders payload).
Proof.
  intros Hd Hlive. unfold verifyReadToken. rewrite Hd.
  destruct (Z.gtb_spec (ITokenEncryptor.expiresDate payload) 0);
    destruct (Z.gtb_spec (epochSeconds now) (ITokenEncryptor.expiresDate payload));
    simpl; try done; lia.
Qed.

Lemma verifyReadToken_never_expires (token : string) (now : Z) (payload : ITokenEncryptor.t) :
  decrypt (expireTokenEncryptor this) token = Ok payload →
  ITokenEncryptor.expiresDate payload = -1 →
  verifyReadToken this token now = Ok (ITokenEncryptor.respHeaders payload).
Proof. intros Hd He. apply verifyReadToken_live; [done | lia]. Qed.

(** The [throw] for an elapsed expiry sits inside the [try] block, so the
    [catch] replaces it. *)
Lemma verifyReadToken_elapsed (token : string) (now : Z) (payload : ITokenEncryptor.t) :
  decrypt (expireTokenEncryptor this) token = Ok payload →
  0 < ITokenEncryptor.expiresDate payload →
  ITokenEncryptor.expiresDate payload < epochSeconds now →
  verifyReadToken this token now = Err (BadRequestException "Invalid token").
Proof.
  intros Hd Hpos Hlate. unfold verifyReadToken. rewrite Hd.
  destruct (Z.gtb_spec (ITokenEncryptor.expiresDate payload) 0); [|lia].
  destruct (Z.gtb_spec (epochSeconds now) (ITokenEncryptor.expiresDate payload)); [|lia].
  done.
Qed.

Lemma verifyReadToken_never_reports_expiry (token : string) (now : Z) :
  verifyReadToken this token now ≠ Err (BadRequestException "Token has expired").
Proof.
  unfold verifyReadToken.
  destruct (decrypt _ token) as [payload|e]; simpl; [|done].
  by destruct (_ && _).
Qed.

End ReadTokens.

(** A token made by [getUrl] is accepted by [verifyReadToken] of the same
    storage until its expiry. *)
Lemma verifyReadToken_own_token `{Platform} (config : IStorageConfig)
    (baseConfig : IBaseConfig) (payload : ITokenEncryptor.t) (now : Z) :
  let this := LocalStorage.new config baseConfig in
  ITokenEncryptor.expiresDate payload ≤ 0
    ∨ epochSeconds now ≤ ITokenEncryptor.expiresDate payload →
  LocalStorage.verifyReadToken this
    (encrypt (LocalStorage.expireTokenEncryptor this) payload) now
  = Ok (ITokenEncryptor.respHeaders payload).
Proof.
  intros this Hlive.
  apply verifyReadToken_live; [|done].
  unfold this, LocalStorage.new; cbn [LocalStorage.expireTokenEncryptor].
  unfold TokenCodec.new; cbn [decrypt encrypt].
  by rewrite open_seal.
Qed.

(** C1. A read token whose payload expired at second 100, verified at second
    200: the token decrypts to its payload, the expiry is positive and has
    elapsed, and [verifyReadToken] fails with the message of an invalid
    token, not with that of an expired one. *)
Theorem verifyReadToken_expired_token_reported_invalid :
  decrypt (LocalStorage.expireTokenEncryptor Demo.storage) Demo.expiredToken
    = Ok Demo.expiredPayload
  ∧ 0 < ITokenEncryptor.expiresDate Demo.expiredPayload < epochSeconds 200000
  ∧ LocalStorage.verifyReadToken Demo.storage Demo.expiredToken 200000
    = Err (BadRequestException "Invalid token").
Proof.
  split; [by vm_compute |].
  split; [by vm_compute |].
  by vm_compute.
Qed.

(** ** Validating an upload against its presigned entry *)

Section ValidateToken.
Import LocalStorage.

Variables (token : string) (file : ILocalFileUpload.t) (now : Z) (w : World).
Variable entry : ILocalSignature.t.
Hypothesis cached :
  cacheGet ("attachment:local-signature:" +:+ token) (localSignatures w) = Some entry.

Ltac run_validate :=
  unfold validateToken, bind, getLocalSignature, throw, ret;
  rewrite cached; cbv zeta.

(** Validation only reads: the cache and the files are as before. *)
Lemma validateToken_frame : snd (validateToken token file now w) = w.
Proof.
  run_validate.
  destruct (_ >? _); [done |].
  destruct (_ && _); [done |].
  destruct (ILocalFileUpload.mimetype file) as [m|]; [|done].
  by destruct (_ && _).
Qed.

Lemma validateToken_expired :
  ILocalSignature.expiresDate entry < epochSeconds now →
  validateToken token file now w = (Err (BadRequestException "Token has expired"), w).
Proof.
  intros Hlate. run_validate.
  destruct (Z.gtb_spec (epochSeconds now) (ILocalSignature.expiresDate entry)); [done | lia].
Qed.

Hypothesis unexpired : epochSeconds now ≤ ILocalSignature.expiresDate entry.

Lemma validateToken_size_mismatch :
  ILocalSignature.contentLength entry ≠ 0 →
  ILocalSignature.contentLength entry ≠ ILocalFileUpload.size file →
  validateToken token file now w = (Err (BadRequestException "Size mismatch"), w).
Proof.
  intros Hnz Hne. run_validate.
  destruct (Z.gtb_spec (epochSeconds now) (ILocalSignature.expiresDate entry)); [lia |].
  unfold truthyNumber.
  destruct (Z.eqb_spec (ILocalSignature.contentLength entry) 0); [done |].
  destruct (Z.eqb_spec (ILocalSignature.contentLength entry) (ILocalFileUpload.size file));
    done.
Qed.

(** What remains of validation once the size check has passed. *)
Lemma validateToken_after_size_check :
  ILocalSignature.contentLength entry = 0
    ∨ ILocalSignature.contentLength entry = ILocalFileUpload.size file →
  validateToken token file now w =
    match ILocalFileUpload.mimetype file with
    | Some m =>
        if truthyString m && negb (String.eqb m (ILocalSignature.contentType entry))
        then (Err (BadRequestException ("Not allow upload " +:+ m +:+ " file")), w)
        else (Ok tt, w)
    | None => (Ok tt, w)
    end.
Proof.
  intros Hsize. run_validate.
  destruct (Z.gtb_spec (epochSeconds now) (ILocalSignature.expiresDate entry)); [lia |].
  unfold truthyNumber.
  destruct (Z.eqb_spec (ILocalSignature.contentLength entry) 0) as [Hz|Hz];
    destruct (Z.eqb_spec (ILocalSignature.contentLength entry) (ILocalFileUpload.size file));
    simpl; try (exfalso; lia);
    destruct (ILocalFileUpload.mimetype file) as [m|]; try done;
    by destruct (_ && _).
Qed.

Lemma validateToken_zero_length_skips_size_check :
  ILocalSignature.contentLength entry = 0 →
  validateToken token file now w ≠ (Err (BadRequestException "Size mismatch"), w).
Proof.
  intros Hz. rewrite validateToken_after_size_check by (by left).
  destruct (ILocalFileUpload.mimetype file) as [m|]; [|done].
  destruct (_ && _); [|done].
  by intros [= Hm].
Qed.

End ValidateToken.

(** C5. Whenever the presigned entry of a token is still readable from the
    cache and the clock, in whole epoch seconds, is strictly after the
    entry's [expiresDate], [validateToken] fails with "Token has expired",
    whatever the size and type of the uploaded file, and changes nothing. *)
Theorem validateToken_after_expiry_fails
    (token : string) (file : ILocalFileUpload.t) (now : Z) (w : World)
    (entry : ILocalSignature.t) :
  cacheGet ("attachment:local-signature:" +:+ token) (localSignatures w) = Some entry →
  ILocalSignature.expiresDate entry < epochSeconds now →
  LocalStorage.validateToken token file now w
  = (Err (BadRequestException "Token has expired"), w).
Proof. apply validateToken_expired. Qed.

Lemma validateToken_after_expiry_fails_witness :
  LocalStorage.validateToken "tok" Demo.textUpload 161000 Demo.pngWorld
  = (Err (BadRequestException "Token has expired"), Demo.pngWorld).
Proof.
  apply (validateToken_after_expiry_fails "tok" Demo.textUpload 161000 Demo.pngWorld
           {| ILocalSignature.expiresDate := 160;
              ILocalSignature.contentLength := 1024;
              ILocalSignature.contentType := "image/png" |}).
  - reflexivity.
  - reflexivity.
Defined.

(** C3 (as stated, refuted). A presigned entry with [contentLength] 0 is
    cached and unexpired, the uploaded file has 5 bytes, and validation
    succeeds: the guard [contentLength && ...] skips the size check. *)
Lemma validateToken_zero_length_accepts_five_bytes :
  cacheGet "attachment:local-signature:tok" (localSignatures Demo.zeroLengthWorld)
    = Some {| ILocalSignature.expiresDate := 160;
              ILocalSignature.contentLength := 0;
              ILocalSignature.contentType := "image/png" |}
  ∧ epochSeconds 100000 ≤ 160
  ∧ ILocalFileUpload.size Demo.fiveBytes ≠ 0
  ∧ LocalStorage.validateToken "tok" Demo.fiveBytes 100000 Demo.zeroLengthWorld
    = (Ok tt, Demo.zeroLengthWorld).
Proof. repeat split; by vm_compute. Qed.

(** C3 (amended). Whenever the cached entry exists and is unexpired, its
    [contentLength] is not 0 and differs from the size of the uploaded file,
    [validateToken] fails with "Size mismatch" and leaves the cache and every
    file as they were, so nothing is relocated into durable storage. *)
Theorem validateToken_size_mismatch_rejected
    (token : string) (file : ILocalFileUpload.t) (now : Z) (w : World)
    (entry : ILocalSignature.t) :
  cacheGet ("attachment:local-signature:" +:+ token) (localSignatures w) = Some entry →
  epochSeconds now ≤ ILocalSignature.expiresDate entry →
  ILocalSignature.contentLength entry ≠ 0 →
  ILocalSignature.contentLength entry ≠ ILocalFileUpload.size file →
  LocalStorage.validateToken token file now w
  = (Err (BadRequestException "Size mismatch"), w).
Proof. apply validateToken_size_mismatch. Qed.

Lemma validateToken_size_mismatch_rejected_witness :
  LocalStorage.validateToken "tok" Demo.fiveBytes 100000 Demo.pngWorld
  = (Err (BadRequestException "Size mismatch"), Demo.pngWorld).
Proof.
  apply (validateToken_size_mismatch_rejected "tok" Demo.fiveBytes 100000 Demo.pngWorld
           {| ILocalSignature.expiresDate := 160;
              ILocalSignature.contentLength := 1024;
              ILocalSignature.contentType := "image/png" |}).
  - reflexivity.
  - vm_compute. discriminate.
  - discriminate.
  - discriminate.
Defined.

(** C4 (as stated, refuted). The cached entry declares "image/png", the
    upload carries no content type at all, the size matches, and validation
    succeeds: the guard is on the uploaded mimetype. *)
Lemma validateToken_accepts_upload_without_mimetype :
  cacheGet "attachment:local-signature:tok" (localSignatures Demo.pngWorld)
    = Some {| ILocalSignature.expiresDate := 160;
              ILocalSignature.contentLength := 1024;
              ILocalSignature.contentType := "image/png" |}
  ∧ epochSeconds 100000 ≤ 160
  ∧ ILocalFileUpload.size Demo.untypedUpload = 1024
  ∧ ILocalFileUpload.mimetype Demo.untypedUpload ≠ Some "image/png"
  ∧ LocalStorage.validateToken "tok" Demo.untypedUpload 100000 Demo.pngWorld
    = (Ok tt, Demo.pngWorld).
Proof. repeat split; by vm_compute. Qed.

(** C4 (amended). Whenever the cached entry exists, is unexpired and the size
    check passes, [validateToken] fails with "Not allow upload <mimetype>
    file" exactly when the uploaded mimetype is present, non-empty and
    different from the cached [contentType]; otherwise it succeeds. *)
Theorem validateToken_type_mismatch_iff
    (token : string) (file : ILocalFileUpload.t) (now : Z) (w : World)
    (entry : ILocalSignature.t) :
  cacheGet ("attachment:local-signature:" +:+ token) (localSignatures w) = Some entry →
  epochSeconds now ≤ ILocalSignature.expiresDate entry →
  ILocalSignature.contentLength entry = 0
    ∨ ILocalSignature.contentLength entry = ILocalFileUpload.size file →
  let mismatch (m : string) :=
    ILocalFileUpload.mimetype file = Some m
    ∧ m ≠ "" ∧ m ≠ ILocalSignature.contentType entry in
  (∀ m, mismatch m →
     LocalStorage.validateToken token file now w
     = (Err (BadRequestException ("Not allow upload " +:+ m +:+ " file")), w))
  ∧ ((∀ m, ¬ mismatch m) →
     LocalStorage.validateToken token file now w = (Ok tt, w)).
Proof.
  intros Hc Hu Hs mismatch.
  rewrite (validateToken_after_size_check token file now w entry Hc Hu Hs).
  unfold mismatch, truthyString.
  destruct (ILocalFileUpload.mimetype file) as [m0|].
  - destruct (String.eqb_spec m0 ""), (String.eqb_spec m0 (ILocalSignature.contentType entry));
      simpl; (split; [intros m (Hm & Hne & Hct); injection Hm as <-; done | intros Hno]);
      try done.
    by destruct (Hno m0).
  - split; [by intros m (Hm & _) | done].
Qed.

Lemma validateToken_type_mismatch_iff_witness :
  LocalStorage.validateToken "tok" Demo.textUpload 100000 Demo.pngWorld
  = (Err (BadRequestException "Not allow upload text/plain file"), Demo.pngWorld).
Proof.
  refine (proj1 (validateToken_type_mismatch_iff "tok" Demo.textUpload 100000 Demo.pngWorld
           {| ILocalSignature.expiresDate := 160;
              ILocalSignature.contentLength := 1024;
              ILocalSignature.contentType := "image/png" |} _ _ _) "text/plain" _).
  - reflexivity.
  - vm_compute. discriminate.
  - right. reflexivity.
  - split; [reflexivity | split; discriminate].
Defined.

(** ** Presigning *)

(** C8. For every presign request, [presigned] returns the generated token,
    the path [join(dir, hash ?? token)], the upload url of the token, the
    method "PUT" and the declared Content-Type and Content-Length as request
    headers; and it stores under the token's cache key, with a time-to-live
    of [expiresIn] (the request's, or else the configured default), the entry
    [{expiresDate = now + expiresIn, contentLength, contentType}], with [now]
    in whole epoch seconds.  No other cache entry and no file changes. *)
Theorem presigned_result_and_cache_entry `{Platform}
    (this : LocalStorage.t) (bucket dir : string) (params : IPresignParams.t)
    (token : string) (now : Z) (w : World) :
  let expiresIn :=
    default (second (tokenExpireIn (LocalStorage.config this)))
            (IPresignParams.expiresIn params) in
  let key := "attachment:local-signature:" +:+ token in
  ∃ w',
    LocalStorage.presigned this bucket dir params token now w
    = (Ok {| IPresignRes.token := token;
             IPresignRes.path :=
               join [dir; default token (IPresignParams.hash params)];
             IPresignRes.url := "/api/attachments/upload/" +:+ token;
             IPresignRes.uploadMethod := "PUT";
             IPresignRes.requestHeaders :=
               {| IRequestHeaders.ContentType := IPresignParams.contentType params;
                  IRequestHeaders.ContentLength := IPresignParams.contentLength params |} |},
       w')
    ∧ localSignatures w' !! key
      = Some ({| ILocalSignature.expiresDate := epochSeconds now + expiresIn;
                 ILocalSignature.contentLength := IPresignParams.contentLength params;
                 ILocalSignature.contentType := IPresignParams.contentType params |},
              expiresIn)
    ∧ (∀ other, other ≠ key → localSignatures w' !! other = localSignatures w !! other)
    ∧ uploadCaches w' = uploadCaches w
    ∧ fs w' = fs w.
Proof.
  intros expiresIn key.
  eexists. split; [reflexivity |].
  cbn [localSignatures uploadCaches fs]. unfold cacheSet.
  split; [apply lookup_insert_eq |].
  split; [|done].
  intros other Hne. by apply lookup_insert_ne.
Qed.

(** C10. [presigned] does not depend on its bucket argument: two calls that
    differ only in the bucket return the same result and leave the same
    world, cache entry included. *)
Theorem presigned_ignores_bucket `{Platform}
    (this : LocalStorage.t) (bucket1 bucket2 dir : string)
    (params : IPresignParams.t) (token : string) (now : Z) (w : World) :
  LocalStorage.presigned this bucket1 dir params token now w
  = LocalStorage.presigned this bucket2 dir params token now w.
Proof. reflexivity. Qed.


(** ** Relocating a temporary file into the storage directory *)

Section Relocate.
Context `{Platform}.
Variables (fault : option CopyFault) (src dest : string) (w : World).

Lemma copy_failure_keeps_source (e : Exception) (w' : World) :
  copy fault src dest w = (Err e, w') →
  fs w' !! src = fs w !! src ∧ ∃ message, e = Error message.
Proof.
  unfold copy.
  destruct (fs w !! src) as [data|] eqn:Hsrc; [|intros [= <- <-]; eauto].
  destruct (decide (src = dest)) as [->|Hne]; [intros [= <- <-]; eauto |].
  destruct fault as [f|]; [|done].
  intros [= <- <-]. split; [|eauto].
  destruct (fault_partial f) as [part|]; [|done].
  cbn [fs]. rewrite lookup_insert_ne; done.
Qed.

Lemma copy_success (w' : World) :
  copy fault src dest w = (Ok tt, w') →
  ∃ data,
    fs w !! src = Some data ∧ src ≠ dest
    ∧ w' = mkWorld (localSignatures w) (uploadCaches w) (<[dest := data]> (fs w)).
Proof.
  unfold copy.
  destruct (fs w !! src) as [data|] eqn:Hsrc; [|done].
  destruct (decide (src = dest)) as [->|Hne]; [done |].
  destruct fault as [f|]; [done |].
  intros [= <-]. by exists data.
Qed.

End Relocate.

(** C7. For every call [save(filePath, rename)]: when the copy into the
    storage directory fails, [save] fails with that error, an [Error] of the
    filesystem, and what is stored at [filePath] is as before; when the copy
    succeeds, [save] returns [join(path, rename)], nothing is left at
    [filePath], and the destination holds the bytes that were at
    [filePath]. *)
Theorem save_moves_or_keeps_temporary_file `{Platform}
    (this : LocalStorage.t) (fault : option CopyFault) (filePath rename : string)
    (w : World) :
  let newFilePath := resolve [resolve [LocalStorage.storageDir this]; rename] in
  match copy fault filePath newFilePath w with
  | (Err e, _) =>
      ∃ w',
        LocalStorage.save this fault filePath rename w = (Err e, w')
        ∧ (∃ message, e = Error message)
        ∧ fs w' !! filePath = fs w !! filePath
  | (Ok _, _) =>
      ∃ data w',
        fs w !! filePath = Some data
        ∧ LocalStorage.save this fault filePath rename w
          = (Ok (join [LocalStorage.path this; rename]), w')
        ∧ fs w' !! filePath = None
        ∧ fs w' !! newFilePath = Some data
  end.
Proof.
  intros newFilePath.
  destruct (copy fault filePath newFilePath w) as [[[]|e] w1] eqn:Hcopy.
  - destruct (copy_success _ _ _ _ _ Hcopy) as (data & Hsrc & Hne & ->).
    exists data. eexists. split; [done |].
    unfold LocalStorage.save, bind. fold newFilePath. rewrite Hcopy.
    split; [reflexivity |].
    cbn [fs]. split; [apply lookup_delete_eq |].
    rewrite lookup_delete_ne by done. apply lookup_insert_eq.
  - destruct (copy_failure_keeps_source _ _ _ _ _ _ Hcopy) as [Hkept Herr].
    exists w1. unfold LocalStorage.save, bind. fold newFilePath. by rewrite Hcopy.
Qed.

(** ** Object metadata *)

(** C6 (as stated, refuted). An object is persisted and recorded as
    "image/png", its bytes are not an image, metadata extraction fails, and
    [getObjectMeta] fails with the extraction error instead of returning the
    hash, mimetype, size and url. *)
Lemma getObjectMeta_fails_when_extraction_fails :
  cacheGet "attachment:upload:up1" (uploadCaches Demo.notAnImageWorld)
    = Some {| IUploadCache.mimetype := "image/png";
              IUploadCache.hash := "3";
              IUploadCache.size := 3 |}
  ∧ fs Demo.notAnImageWorld !! "/app/.assets/uploads/bucket/pic" = Some [x61; x62; x63]
  ∧ @LocalStorage.getObjectMeta Demo.platform Demo.storage "bucket" "pic" "up1"
      Demo.notAnImageWorld
    = (Err (Error "Input file contains unsupported image format"), Demo.notAnImageWorld).
Proof. repeat split; by vm_compute. Qed.

(** C6 (amended). For every persisted object recorded in the upload cache,
    [getObjectMeta] never changes the cache or the files, so a failed
    extraction does not invalidate the object; when the mimetype is not an
    image it returns hash, mimetype, size and url without width and height
    and attempts no extraction; when the mimetype is an image and the
    extraction fails, [getObjectMeta] fails with the extraction error; when
    it succeeds, width and height are merged in. *)
Theorem getObjectMeta_extraction_outcomes `{Platform}
    (this : LocalStorage.t) (bucket path token : string) (w : World)
    (uploadCache : IUploadCache.t) :
  cacheGet ("attachment:upload:" +:+ token) (uploadCaches w) = Some uploadCache →
  let mimetype := IUploadCache.mimetype uploadCache in
  let meta :=
    IObjectMeta.mk (IUploadCache.hash uploadCache) mimetype (IUploadCache.size uploadCache)
      (LocalStorage.getUrl this bucket path
         {| ITokenEncryptor.respHeaders := Some {[ "Content-Type" := mimetype ]};
            ITokenEncryptor.expiresDate := -1 |}) in
  let stored := fs w !! resolve [LocalStorage.storageDir this; bucket; path] in
  (String.prefix "image/" mimetype = false →
     LocalStorage.getObjectMeta this bucket path token w = (Ok (meta None None), w))
  ∧ (String.prefix "image/" mimetype = true →
     ∀ e, sharpMetadata stored = Err e →
          LocalStorage.getObjectMeta this bucket path token w = (Err e, w))
  ∧ (String.prefix "image/" mimetype = true →
     ∀ info, sharpMetadata stored = Ok info →
          LocalStorage.getObjectMeta this bucket path token w
          = (Ok (meta (info_width info) (info_height info)), w)).
Proof.
  intros Hc mimetype meta stored.
  unfold LocalStorage.getObjectMeta, bind, getUploadCache, ret. rewrite Hc.
  fold mimetype. cbv zeta.
  repeat split.
  - by intros ->.
  - intros -> e He. cbn [negb]. unfold LocalStorage.getFileMate.
    fold stored. by rewrite He.
  - intros -> info Hi. cbn [negb]. unfold LocalStorage.getFileMate.
    fold stored. by rewrite Hi.
Qed.

Lemma getObjectMeta_extraction_outcomes_witness :
  @LocalStorage.getObjectMeta Demo.platform Demo.storage "bucket" "pic" "up1"
    Demo.notAnImageWorld
  = (Err (Error "Input file contains unsupported image format"), Demo.notAnImageWorld).
Proof.
  refine (proj1 (proj2 (@getObjectMeta_extraction_outcomes Demo.platform Demo.storage
            "bucket" "pic" "up1" Demo.notAnImageWorld
            {| IUploadCache.mimetype := "image/png";
               IUploadCache.hash := "3";
               IUploadCache.size := 3 |} _)) _ _ _).
  - reflexivity.
  - reflexivity.
  - reflexivity.
Defined.

Example save_relocates_temporary_file :
  let w' := snd (@LocalStorage.save Demo.platform Demo.storage None
                   "/tmp/.temporary/abc" "bucket/pic" Demo.tempWorld) in
  fs w' !! "/tmp/.temporary/abc" = None
  ∧ fs w' !! "/app/.assets/uploads/bucket/pic" = Some [x61; x62; x63].
Proof. split; by vm_compute. Qed.

Example save_failed_copy_keeps_temporary_file :
  @LocalStorage.save Demo.platform Demo.storage
    (Some {| fault_message := "ENOSPC: no space left on device"; fault_partial := None |})
    "/tmp/.temporary/abc" "bucket/pic" Demo.tempWorld
  = (Err (Error "ENOSPC: no space left on device"), Demo.tempWorld).
Proof. by vm_compute. Qed.

(** ** Uploads through a temporary file *)

Section TemporaryFiles.
Context `{Platform}.

Lemma write_run (filePath : string) (chunk : bytes) (w : World) :
  write filePath chunk w
  = (Ok tt, mkWorld (localSignatures w) (uploadCaches w)
              (<[filePath := (default [] (fs w !! filePath) ++ chunk)%list]> (fs w))).
Proof. reflexivity. Qed.

(** Writing chunks to an open file appends them in order. *)
Lemma writeAll_run (filePath : string) (body : list bytes) :
  ∀ (w : World) (data : bytes),
    fs w !! filePath = Some data →
    writeAll filePath body w
    = (Ok tt, mkWorld (localSignatures w) (uploadCaches w)
                (<[filePath := (data ++ concat body)%list]> (fs w))).
Proof.
  induction body as [|chunk body IH]; intros w data Hdata.
  - cbn [writeAll concat]. unfold ret.
    rewrite app_nil_r, insert_id by done. by destruct w.
  - cbn [writeAll concat]. unfold bind. rewrite write_run, Hdata.
    rewrite (IH _ (data ++ chunk)%list) by apply lookup_insert_eq.
    cbn [localSignatures uploadCaches fs default].
    by rewrite insert_insert_eq, app_assoc.
Qed.

Lemma stream_to_file (filePath : string) (body : list bytes) (w : World) :
  bind (createWriteStream filePath) (fun _ => writeAll filePath body) w
  = (Ok tt, mkWorld (localSignatures w) (uploadCaches w)
              (<[filePath := concat body]> (fs w))).
Proof.
  unfold bind, createWriteStream, writeFile, setFs.
  rewrite (writeAll_run filePath body _ []) by apply lookup_insert_eq.
  cbn [localSignatures uploadCaches fs].
  by rewrite insert_insert_eq.
Qed.

Lemma deleteFile_run (filePath : string) (w : World) :
  LocalStorage.deleteFile filePath w
  = (Ok tt, mkWorld (localSignatures w) (uploadCaches w) (delete filePath (fs w))).
Proof.
  unfold LocalStorage.deleteFile, bind, existsSync.
  case_bool_decide as Hpresent; [done |].
  unfold ret. rewrite delete_id; [by destruct w |].
  by apply eq_None_not_Some.
Qed.

Variable this : LocalStorage.t.


(** [uploadFile] deletes [path], not the temporary file, when the source
    stream errors: what was written so far stays in the temporary
    directory. *)
Lemma uploadFile_stream_error_keeps_temporary_file
    (fault : option CopyFault) (bucket path : string) (stream : Readable)
    (name message : string) (w : World) :
  ending stream = StreamError message →
  let temPath := resolve [LocalStorage.temporaryDir this; name] in
  path ≠ temPath →
  ∃ w',
    LocalStorage.uploadFile this fault bucket path (FromStream stream) name w
    = (Err (Error message), w')
    ∧ fs w' !! temPath = Some (concat (chunks stream)).
Proof.
  intros Hending temPath Hne.
  unfold LocalStorage.uploadFile. fold temPath. rewrite Hending.
  pose proof (stream_to_file temPath (chunks stream) w) as Hrun.
  unfold bind in *.
  destruct (createWriteStream temPath w) as [[[]|e] w1]; [|done].
  rewrite Hrun, deleteFile_run. unfold throw.
  eexists. split; [reflexivity |].
  cbn [fs]. rewrite lookup_delete_ne by done. apply lookup_insert_eq.
Qed.

End TemporaryFiles.

(** C2. A stream upload that errors after delivering three bytes: [uploadFile]
    fails with the stream's error, and the temporary file it created is still
    in the temporary directory with the three bytes in it; the cleanup
    deleted [path] instead.  The same error in [saveTemporaryFile] leaves no
    file behind. *)
Theorem uploadFile_stream_error_leaves_partial_temporary_file :
  let run :=
    @LocalStorage.uploadFile Demo.platform Demo.storage None "bucket" "dir/pic.png"
      (FromStream Demo.brokenStream) "tmp0" Demo.emptyWorld in
  fst run = Err (Error "socket hang up")
  ∧ fs (snd run) !! "/tmp/.temporary/tmp0" = Some [x61; x62; x63]
  ∧ @LocalStorage.saveTemporaryFile Demo.platform Demo.storage Demo.brokenRequest "tmp0"
      Demo.emptyWorld
    = (Err (Rejected "aborted"), Demo.emptyWorld).
Proof. repeat split; by vm_compute. Qed.


(** * Further properties of the adapter *)

(** ** Splitting paths *)

Section SplitFacts.
Variable sep : ascii.

Lemma stringSplit_nonempty (s : string) : stringSplit sep s ≠ [].
Proof.
  destruct s as [|c s]; [done |].
  cbn [stringSplit]. destruct (Ascii.eqb c sep); [done |].
  by destruct (stringSplit sep s).
Qed.

Lemma stringSplit_piece (piece rest : string) :
  containsChar sep piece = false →
  stringSplit sep (piece +:+ String sep rest) = piece :: stringSplit sep rest.
Proof.
  induction piece as [|c piece IH]; intros Hfree.
  - change (EmptyString +:+ String sep rest) with (String sep rest).
    cbn [stringSplit]. by rewrite Ascii.eqb_refl.
  - cbn [containsChar] in Hfree. apply orb_false_iff in Hfree as [Hc Hfree].
    rewrite string_app_cons. cbn [stringSplit]. rewrite Hc.
    by rewrite IH.
Qed.

Lemma stringSplit_single (piece : string) :
  containsChar sep piece = false → stringSplit sep piece = [piece].
Proof.
  induction piece as [|c piece IH]; intros Hfree; [done |].
  cbn [containsChar] in Hfree. apply orb_false_iff in Hfree as [Hc Hfree].
  cbn [stringSplit]. rewrite Hc. by rewrite IH.
Qed.

(** Splitting what was joined gives the pieces back. *)
Lemma stringSplit_concat (pieces : list string) :
  pieces ≠ [] →
  Forall (fun piece => containsChar sep piece = false) pieces →
  stringSplit sep (String.concat (String sep EmptyString) pieces) = pieces.
Proof.
  intros Hne Hfree.
  induction Hfree as [|piece pieces Hpiece Hrest IH]; [done |].
  destruct pieces as [|next pieces].
  - by apply stringSplit_single.
  - change (String.concat (String sep EmptyString) (piece :: next :: pieces))
      with (piece +:+ String sep (String.concat (String sep EmptyString) (next :: pieces))).
    rewrite stringSplit_piece by done.
    by rewrite IH.
Qed.

(** No piece contains the separator. *)
Lemma stringSplit_pieces_free (s : string) :
  Forall (fun piece => containsChar sep piece = false) (stringSplit sep s).
Proof.
  induction s as [|c s IH]; [by repeat constructor |].
  cbn [stringSplit]. destruct (Ascii.eqb c sep) eqn:Hc; [by constructor |].
  destruct (stringSplit sep s) as [|piece pieces]; [repeat constructor |].
  - cbn [containsChar]. by rewrite Hc.
  - inversion IH as [|? ? Hpiece Hrest]; subst.
    constructor; [|done]. cbn [containsChar]. by rewrite Hc, Hpiece.
Qed.

(** Joining the pieces gives the string back. *)
Lemma concat_stringSplit (s : string) :
  String.concat (String sep EmptyString) (stringSplit sep s) = s.
Proof.
  induction s as [|c s IH]; [done |].
  cbn [stringSplit]. destruct (Ascii.eqb_spec c sep) as [->|Hc].
  - pose proof (stringSplit_nonempty s) as Hne.
    destruct (stringSplit sep s) as [|piece pieces]; [done |].
    change (String.concat (String sep EmptyString) (EmptyString :: piece :: pieces))
      with (String sep (String.concat (String sep EmptyString) (piece :: pieces))).
    by rewrite IH.
  - pose proof (stringSplit_nonempty s) as Hne.
    destruct (stringSplit sep s) as [|piece [|next pieces]]; [done | |].
    + cbn in IH. by rewrite IH.
    + change (String.concat (String sep EmptyString) (String c piece :: next :: pieces))
        with (String c (String.concat (String sep EmptyString) (piece :: next :: pieces))).
      by rewrite IH.
Qed.

End SplitFacts.

(** X1. For a path made of one or more pieces joined by [/], none of which
    contains [/], [parsePath] returns the first piece as bucket and the last
    piece as token; for a single piece both are that piece. *)
Theorem parsePath_first_and_last_piece (pieces : list string) (bucket token : string) :
  firstPart pieces = Some bucket →
  lastPart pieces = Some token →
  Forall (fun piece => containsChar "/" piece = false) pieces →
  LocalStorage.parsePath (String.concat "/" pieces)
  = {| IParsedPath.bucket := bucket; IParsedPath.token := token |}.
Proof.
  intros Hfirst Hlast Hfree.
  unfold LocalStorage.parsePath.
  rewrite (stringSplit_concat "/" pieces) by (done || by destruct pieces).
  by rewrite Hfirst, Hlast.
Qed.

Lemma parsePath_first_and_last_piece_witness :
  LocalStorage.parsePath "bucket/dir/tok"
  = {| IParsedPath.bucket := "bucket"; IParsedPath.token := "tok" |}.
Proof.
  apply (parsePath_first_and_last_piece ["bucket"; "dir"; "tok"] "bucket" "tok").
  - reflexivity.
  - reflexivity.
  - repeat constructor.
Defined.

(** X2. For every path, the bucket and the token that [parsePath] returns
    contain no [/]; the path is the bucket followed by the remaining pieces,
    and it is the leading pieces followed by the token, joined by [/]. *)
Theorem parsePath_bucket_and_token_are_pieces (path : string) :
  let parsed := LocalStorage.parsePath path in
  containsChar "/" (IParsedPath.bucket parsed) = false
  ∧ containsChar "/" (IParsedPath.token parsed) = false
  ∧ (∃ after, path = String.concat "/" (IParsedPath.bucket parsed :: after))
  ∧ (∃ before, path = String.concat "/" (before ++ [IParsedPath.token parsed])%list).
Proof.
  intros parsed. unfold parsed, LocalStorage.parsePath. cbn [IParsedPath.bucket IParsedPath.token].
  pose proof (stringSplit_pieces_free "/" path) as Hfree.
  pose proof (concat_stringSplit "/" path) as Hjoin.
  pose proof (stringSplit_nonempty "/" path) as Hne.
  destruct (stringSplit "/" path) as [|piece pieces] eqn:Hsplit; [done |].
  clear Hne. split; [by inversion Hfree |].
  destruct (exists_last (l := piece :: pieces) ltac:(done)) as (before & final & Hlast).
  unfold firstPart, lastPart. rewrite Hlast in Hfree |- *. rewrite last_snoc.
  cbn [default].
  split.
  - apply Forall_app in Hfree as [_ Hfinal]. by inversion Hfinal.
  - split.
    + exists pieces. rewrite <- Hlast. cbn [head default]. by rewrite <- Hjoin at 1.
    + exists before. rewrite <- Hjoin at 1. by rewrite Hlast.
Qed.

(** ** Temporary files *)







(** ** Validation, once more *)

Lemma validateToken_unknown_token (token : string) (file : ILocalFileUpload.t)
    (now : Z) (w : World) :
  cacheGet ("attachment:local-signature:" +:+ token) (localSignatures w) = None →
  LocalStorage.validateToken token file now w
  = (Err (BadRequestException "Invalid token"), w).
Proof.
  intros Hmissing.
  unfold LocalStorage.validateToken, bind, getLocalSignature, throw.
  by rewrite Hmissing.
Qed.

(** X6. [validateToken] succeeds exactly when the token has a cached entry,
    the clock in whole epoch seconds is not past the entry's expiry, the
    entry's content length is 0 or equals the uploaded size, and the uploaded
    mimetype is missing, empty or equal to the entry's content type. *)
Theorem validateToken_succeeds_iff (token : string) (file : ILocalFileUpload.t)
    (now : Z) (w : World) :
  fst (LocalStorage.validateToken token file now w) = Ok tt
  ↔ ∃ entry,
      cacheGet ("attachment:local-signature:" +:+ token) (localSignatures w) = Some entry
      ∧ epochSeconds now ≤ ILocalSignature.expiresDate entry
      ∧ (ILocalSignature.contentLength entry = 0
         ∨ ILocalSignature.contentLength entry = ILocalFileUpload.size file)
      ∧ (ILocalFileUpload.mimetype file = None
         ∨ ILocalFileUpload.mimetype file = Some ""
         ∨ ILocalFileUpload.mimetype file = Some (ILocalSignature.contentType entry)).
Proof.
  destruct (cacheGet ("attachment:local-signature:" +:+ token) (localSignatures w))
    as [entry|] eqn:Hc.
  2:{ rewrite validateToken_unknown_token by done.
      split; [done | by intros (entry & [=] & _)]. }
  destruct (Z.lt_ge_cases (ILocalSignature.expiresDate entry) (epochSeconds now))
    as [Hlate|Hlive].
  { rewrite (validateToken_expired token file now w entry) by done.
    split; [done |]. intros (entry' & [= <-] & Hle & _). lia. }
  destruct (decide (ILocalSignature.contentLength entry = 0
                    ∨ ILocalSignature.contentLength entry = ILocalFileUpload.size file))
    as [Hsize|Hsize].
  2:{ rewrite (validateToken_size_mismatch token file now w entry) by tauto.
      split; [done |]. by intros (entry' & [= <-] & _ & Hok & _). }
  rewrite (validateToken_after_size_check token file now w entry) by done.
  unfold truthyString.
  destruct (ILocalFileUpload.mimetype file) as [m|].
  - destruct (String.eqb_spec m ""), (String.eqb_spec m (ILocalSignature.contentType entry));
      cbn [negb andb fst]; subst.
    + split; [intros _; exists entry; eauto 10 | done].
    + split; [intros _; exists entry; eauto 10 | done].
    + split; [intros _; exists entry; eauto 10 | done].
    + split; [done |].
      intros (entry' & [= <-] & _ & _ & [Hm | [Hm | Hm]]); congruence.
  - split; [intros _; exists entry; eauto 10 | done].
Qed.

(** X7. [validateToken] only reads: whatever it is given, it leaves the
    cache and the files as they were; and its outcome is success or one of
    four rejections, "Invalid token", "Token has expired", "Size mismatch" or
    "Not allow upload <mimetype> file" for the uploaded mimetype. *)
Theorem validateToken_reads_only_and_rejects_in_four_ways
    (token : string) (file : ILocalFileUpload.t) (now : Z) (w : World) :
  ∃ outcome,
    LocalStorage.validateToken token file now w = (outcome, w)
    ∧ (outcome = Ok tt
       ∨ outcome = Err (BadRequestException "Invalid token")
       ∨ outcome = Err (BadRequestException "Token has expired")
       ∨ outcome = Err (BadRequestException "Size mismatch")
       ∨ ∃ m, ILocalFileUpload.mimetype file = Some m
              ∧ outcome = Err (BadRequestException ("Not allow upload " +:+ m +:+ " file"))).
Proof.
  unfold LocalStorage.validateToken, bind, getLocalSignature, throw, ret.
  destruct (cacheGet _ _) as [entry|]; [|eauto 10].
  cbv zeta.
  destruct (_ >? _); [eauto 10 |].
  destruct (_ && _); [eauto 10 |].
  destruct (ILocalFileUpload.mimetype file) as [m|]; [|eauto 10].
  destruct (_ && _); eauto 10.
Qed.

(** ** Presign, then validate *)





(** ** Read tokens, once more *)

(** X10. [verifyReadToken] returns response headers exactly when the token
    decrypts to a payload with those headers whose expiry is not positive
    (-1, 0 or any negative value never expires) or is not before the clock in
    whole epoch seconds. *)
Theorem verifyReadToken_accepts_iff (this : LocalStorage.t) (token : string) (now : Z)
    (headers : option IRespHeaders) :
  LocalStorage.verifyReadToken this token now = Ok headers
  ↔ ∃ payload,
      decrypt (LocalStorage.expireTokenEncryptor this) token = Ok payload
      ∧ ITokenEncryptor.respHeaders payload = headers
      ∧ (ITokenEncryptor.expiresDate payload ≤ 0
         ∨ epochSeconds now ≤ ITokenEncryptor.expiresDate payload).
Proof.
  destruct (decrypt (LocalStorage.expireTokenEncryptor this) token) as [payload|e0] eqn:Hd.
  2:{ rewrite (verifyReadToken_undecodable this token now e0 Hd).
      split; [done | by intros (payload & [=] & _)]. }
  destruct (decide (ITokenEncryptor.expiresDate payload ≤ 0
                    ∨ epochSeconds now ≤ ITokenEncryptor.expiresDate payload))
    as [Hlive|Hdead].
  - rewrite (verifyReadToken_live this token now payload Hd Hlive).
    split.
    + intros [= <-]. by exists payload.
    + by intros (payload' & [= <-] & <- & _).
  - rewrite (verifyReadToken_elapsed this token now payload Hd) by lia.
    split; [done |].
    intros (payload' & [= <-] & _ & Hlive). tauto.
Qed.

(** ** Uploading *)

Section UploadFacts.
Context `{Platform}.
Variable this : LocalStorage.t.

Lemma getHash_run (filePath : string) (data : bytes) (w : World) :
  fs w !! filePath = Some data →
  LocalStorage.getHash filePath w = (Ok (hashOf data), w).
Proof. intros Hdata. unfold LocalStorage.getHash. by rewrite Hdata. Qed.

(** A relocation without fault, of a file that is there, to another path. *)
Lemma save_run (filePath rename : string) (data : bytes) (w : World) :
  fs w !! filePath = Some data →
  filePath ≠ resolve [resolve [LocalStorage.storageDir this]; rename] →
  LocalStorage.save this None filePath rename w
  = (Ok (join [LocalStorage.path this; rename]),
     mkWorld (localSignatures w) (uploadCaches w)
       (delete filePath
          (<[resolve [resolve [LocalStorage.storageDir this]; rename] := data]> (fs w)))).
Proof.
  intros Hdata Hne.
  unfold LocalStorage.save, bind, copy. rewrite Hdata.
  by destruct (decide _).
Qed.



End UploadFacts.





Section RelocateFacts.
Context `{Platform}.
Variable this : LocalStorage.t.

Lemma uploadFileWidthPath_run (bucket path filePath : string) (data : bytes) (w : World) :
  fs w !! filePath = Some data →
  filePath ≠ resolve [resolve [LocalStorage.storageDir this]; join [bucket; path]] →
  LocalStorage.uploadFileWidthPath this None bucket path filePath w
  = (Ok {| IUploadRes.hash := hashOf data; IUploadRes.path := path |},
     mkWorld (localSignatures w) (uploadCaches w)
       (delete filePath
          (<[resolve [resolve [LocalStorage.storageDir this]; join [bucket; path]] := data]>
             (fs w)))).
Proof.
  intros Hdata Hne.
  unfold LocalStorage.uploadFileWidthPath.
  unfold bind at 1. rewrite (getHash_run filePath data) by done.
  unfold bind at 1. by rewrite (save_run this filePath (join [bucket; path]) data).
Qed.


End RelocateFacts.

(** X13. For a file that is stored at [filePath], different from the
    destination, [uploadFileWidthPath] without a copy fault returns the
    digest of the file's bytes and the given path, stores those bytes at the
    destination in the storage directory, leaves nothing at [filePath], and
    changes no other file and no cache entry. *)
Theorem uploadFileWidthPath_moves_file_and_returns_its_digest `{Platform}
    (this : LocalStorage.t) (bucket path filePath : string) (data : bytes) (w : World) :
  fs w !! filePath = Some data →
  let newFilePath :=
    resolve [resolve [LocalStorage.storageDir this]; join [bucket; path]] in
  filePath ≠ newFilePath →
  ∃ w',
    LocalStorage.uploadFileWidthPath this None bucket path filePath w
    = (Ok {| IUploadRes.hash := hashOf data; IUploadRes.path := path |}, w')
    ∧ fs w' !! newFilePath = Some data
    ∧ fs w' !! filePath = None
    ∧ (∀ other, other ≠ newFilePath → other ≠ filePath → fs w' !! other = fs w !! other)
    ∧ localSignatures w' = localSignatures w
    ∧ uploadCaches w' = uploadCaches w.
Proof.
  intros Hdata newFilePath Hne.
  rewrite (uploadFileWidthPath_run this bucket path filePath data w) by done.
  fold newFilePath.
  eexists. split; [reflexivity |].
  cbn [fs localSignatures uploadCaches].
  split; [rewrite lookup_delete_ne by done; apply lookup_insert_eq |].
  split; [apply lookup_delete_eq |].
  split; [|done].
  intros other Hdest Hsrc.
  rewrite lookup_delete_ne by done. by rewrite lookup_insert_ne.
Qed.

Lemma uploadFileWidthPath_moves_file_and_returns_its_digest_witness :
  ∃ w',
    @LocalStorage.uploadFileWidthPath Demo.platform Demo.storage None "bucket" "pic"
      "/tmp/.temporary/abc" Demo.tempWorld
    = (Ok {| IUploadRes.hash := "3"; IUploadRes.path := "pic" |}, w')
    ∧ fs w' !! "/app/.assets/uploads/bucket/pic" = Some [x61; x62; x63]
    ∧ fs w' !! "/tmp/.temporary/abc" = None.
Proof.
  destruct (@uploadFileWidthPath_moves_file_and_returns_its_digest Demo.platform
              Demo.storage "bucket" "pic" "/tmp/.temporary/abc" [x61; x62; x63]
              Demo.tempWorld eq_refl ltac:(discriminate))
    as (w' & Hrun & Hdest & Hsrc & _).
  exists w'. split; [exact Hrun | split; [exact Hdest | exact Hsrc]].
Defined.

(** ** The whole upload *)



(** ** Object metadata and read urls *)

(** X15. [getObjectMeta] only reads: whatever its outcome, the cache and the
    files are as before; and for a token without an upload-cache entry it
    fails with "Invalid token: <token>". *)
Theorem getObjectMeta_reads_only `{Platform}
    (this : LocalStorage.t) (bucket path token : string) (w : World) :
  snd (LocalStorage.getObjectMeta this bucket path token w) = w
  ∧ (cacheGet ("attachment:upload:" +:+ token) (uploadCaches w) = None →
     fst (LocalStorage.getObjectMeta this bucket path token w)
     = Err (BadRequestException ("Invalid token: " +:+ token))).
Proof.
  unfold LocalStorage.getObjectMeta, bind, getUploadCache, throw, ret.
  destruct (cacheGet _ _) as [uploadCache|]; [|done].
  split; [|done].
  destruct (negb _); [done |].
  unfold LocalStorage.getFileMate.
  by destruct (sharpMetadata _).
Qed.

Lemma getUrl_without_content_disposition `{Platform}
    (this : LocalStorage.t) (bucket path : string) (params : ITokenEncryptor.t) :
  (h ← ITokenEncryptor.respHeaders params; h !! "Content-Disposition") = None →
  LocalStorage.getUrl this bucket path params
  = join [LocalStorage.readPath; bucket; path] +:+ "?token="
    +:+ encrypt (LocalStorage.expireTokenEncryptor this) params.
Proof.
  intros Hnone. unfold LocalStorage.getUrl. rewrite Hnone.
  by rewrite string_app_nil_r.
Qed.

(** X16. The url that [getObjectMeta] returns for an object is the read path
    of the object followed by [?token=] and a token, with no
    response-content-disposition; provided the encryptor decrypts that token
    to the payload it was made from, [verifyReadToken] accepts the token at
    every time and returns the object's mimetype as Content-Type. *)
Theorem getObjectMeta_url_token_never_expires `{Platform}
    (this : LocalStorage.t) (bucket path token : string) (w : World)
    (uploadCache : IUploadCache.t) :
  cacheGet ("attachment:upload:" +:+ token) (uploadCaches w) = Some uploadCache →
  let headers : IRespHeaders := {[ "Content-Type" := IUploadCache.mimetype uploadCache ]} in
  let payload :=
    {| ITokenEncryptor.respHeaders := Some headers; ITokenEncryptor.expiresDate := -1 |} in
  let readToken := encrypt (LocalStorage.expireTokenEncryptor this) payload in
  decrypt (LocalStorage.expireTokenEncryptor this) readToken = Ok payload →
  (∀ meta w',
     LocalStorage.getObjectMeta this bucket path token w = (Ok meta, w') →
     IObjectMeta.url meta
     = join [LocalStorage.readPath; bucket; path] +:+ "?token=" +:+ readToken)
  ∧ (∀ later, LocalStorage.verifyReadToken this readToken later = Ok (Some headers)).
Proof.
  intros Hc headers payload readToken Hround.
  split.
  - intros meta w'.
    unfold LocalStorage.getObjectMeta, bind, getUploadCache, ret. rewrite Hc.
    cbv zeta. fold headers. fold payload.
    rewrite (getUrl_without_content_disposition this bucket path payload)
      by (cbn; unfold headers; by rewrite lookup_singleton_ne).
    fold readToken.
    destruct (negb _); [by intros [= <- <-] |].
    unfold LocalStorage.getFileMate.
    destruct (sharpMetadata _); [by intros [= <- <-] | done].
  - intros later.
    apply (verifyReadToken_never_expires this readToken later payload Hround).
    reflexivity.
Qed.

Lemma getObjectMeta_url_token_never_expires_witness :
  (∀ meta w',
     @LocalStorage.getObjectMeta Demo.platform Demo.storage "bucket" "pic" "up1"
       Demo.imageWorld = (Ok meta, w') →
     IObjectMeta.url meta
     = "/api/attachments/read/bucket/pic?token=" +:+ Demo.permanentToken)
  ∧ (∀ later,
       LocalStorage.verifyReadToken Demo.storage Demo.permanentToken later
       = Ok (Some {[ "Content-Type" := "image/png" ]})).
Proof.
  apply (@getObjectMeta_url_token_never_expires Demo.platform Demo.storage "bucket" "pic"
           "up1" Demo.imageWorld
           {| IUploadCache.mimetype := "image/png";
              IUploadCache.hash := "3";
              IUploadCache.size := 3 |}).
  - reflexivity.
  - vm_compute. reflexivity.
Defined.

(** X17. The url that [getPreviewUrl] returns is the storage prefix followed
    by the joined read path of the object, [?token=] and a token; provided
    the encryptor decrypts that token to the payload it was made from,
    [verifyReadToken] accepts the token and returns the given response
    headers at every time up to the second of issue plus [expiresIn] (the
    argument, or else the configured default), and rejects it afterwards
    when that expiry is positive. *)
Theorem getPreviewUrl_token_lifetime `{Platform}
    (this : LocalStorage.t) (bucket path : string) (expiresIn : option Z)
    (respHeaders : option IRespHeaders) (now : Z) :
  let lifetime :=
    default (second (urlExpireIn (LocalStorage.config this))) expiresIn in
  let payload :=
    {| ITokenEncryptor.expiresDate := epochSeconds now + lifetime;
       ITokenEncryptor.respHeaders := respHeaders |} in
  let readToken := encrypt (LocalStorage.expireTokenEncryptor this) payload in
  decrypt (LocalStorage.expireTokenEncryptor this) readToken = Ok payload →
  (∃ suffix,
     LocalStorage.getPreviewUrl this bucket path expiresIn respHeaders now
     = storagePrefix (LocalStorage.baseConfig this)
       +:+ join ["/"; join [LocalStorage.readPath; bucket; path]
                      +:+ "?token=" +:+ readToken +:+ suffix])
  ∧ (∀ later,
       epochSeconds later ≤ epochSeconds now + lifetime →
       LocalStorage.verifyReadToken this readToken later = Ok respHeaders)
  ∧ (∀ later,
       0 < epochSeconds now + lifetime < epochSeconds later →
       ∃ e, LocalStorage.verifyReadToken this readToken later = Err e).
Proof.
  intros lifetime payload readToken Hround.
  split; [|split].
  - unfold LocalStorage.getPreviewUrl, LocalStorage.getUrl.
    fold lifetime. fold payload. fold readToken. eauto.
  - intros later Hin.
    apply (verifyReadToken_live this readToken later payload Hround). by right.
  - intros later [Hpos Hlate].
    rewrite (verifyReadToken_elapsed this readToken later payload Hround) by done.
    eauto.
Qed.

Lemma getPreviewUrl_token_lifetime_witness :
  let readToken :=
    encrypt (LocalStorage.expireTokenEncryptor Demo.storage)
      {| ITokenEncryptor.expiresDate := 160; ITokenEncryptor.respHeaders := None |} in
  (∀ later, epochSeconds later ≤ 160 →
     LocalStorage.verifyReadToken Demo.storage readToken later = Ok None)
  ∧ (∀ later, 0 < 160 < epochSeconds later →
       ∃ e, LocalStorage.verifyReadToken Demo.storage readToken later = Err e).
Proof.
  apply (@getPreviewUrl_token_lifetime Demo.platform Demo.storage "bucket" "pic" (Some 60)
           None 100000).
  vm_compute. reflexivity.
Defined.
